(** * Kolo štěstí (Wheel of Fortune): a shallow embedding of [main.py]

    Python strings are sequences of Unicode code points; a character is
    modelled as its code point ([N]) and a string as a list of them.
    Literals are written with [ustr], which reads an ASCII Rocq string. *)

From Stdlib Require Import List String Ascii ZArith NArith Arith Lia Bool.
From Stdlib Require Import Permutation Sorted DecimalString.
Import ListNotations.
Open Scope Z_scope.

(** ** Characters and strings *)

Definition pchar := N.
Definition pstr := list pchar.

Fixpoint ustr (s : string) : pstr :=
  match s with
  | EmptyString => []
  | String a s' => N_of_ascii a :: ustr s'
  end.

(** [c in s] for a one-character string [c]. *)
Definition mem (c : pchar) (s : list pchar) : bool :=
  existsb (N.eqb c) s.

Fixpoint pstr_eqb (a b : pstr) : bool :=
  match a, b with
  | [], [] => true
  | x :: a', y :: b' => N.eqb x y && pstr_eqb a' b'
  | _, _ => false
  end.

Definition LETTERS : pstr := ustr "ABCDEFGHIJKLMNOPQRSTUVWXYZ".
Definition VOWELS : pstr := ustr "AEIOU".
Definition VOWEL_COST : Z := 250.
Definition UNDERSCORE : pchar := N_of_ascii "_".
Definition EXIT : pstr := ustr "EXIT".
Definition PASS : pstr := ustr "PASS".

(** ** Data model *)

Inductive WheelResult := BANKRUPT | LOSE_TURN | CASH.

(** A JSON value as [json.load] returns it. An object is the [dict] it
    becomes, as its list of (key, value) pairs with distinct keys
    ([json.load] keeps the last value of a repeated key). Numbers are
    integers, which is what the wheel file holds. *)
#[warnings="-register-all"]
Inductive JValue :=
| JNull
| JBool (b : bool)
| JNum (z : Z)
| JStr (s : string)
| JArr (items : list JValue)
| JObj (fields : list (string * JValue)).

(** [WheelSegment]: [text], [value] and [prize] are stored as given. *)
Record WheelSegment := mkSegment {
  seg_text : JValue;
  seg_type : WheelResult;
  seg_value : JValue;
  seg_prize : JValue
}.

Inductive PlayerKind :=
| HumanPlayer
| ComputerPlayer (difficulty : Z).

Record Player := mkPlayer {
  name : string;
  prize_money : Z;
  prizes : list string;
  kind : PlayerKind
}.

(** [Player.__init__]: no money, no prizes. *)
Definition new_player (n : string) (k : PlayerKind) : Player :=
  mkPlayer n 0 [] k.

Definition add_money (p : Player) (amt : Z) : Player :=
  mkPlayer (name p) (prize_money p + amt) (prizes p) (kind p).

Definition go_bankrupt (p : Player) : Player :=
  mkPlayer (name p) 0 (prizes p) (kind p).

(** [guessed] is a Python [set] of one-character strings; it is kept as a
    list of the characters, [set.add] inserting only absent ones. *)
Definition set_add (c : pchar) (g : list pchar) : list pchar :=
  if mem c g then g else c :: g.

Record GameState := mkState {
  category : string;
  phrase : pstr;
  guessed : list pchar;
  players : list Player;
  player_index : nat
}.

(** ** [obscure_phrase] *)

Definition obscure_char (guessed : list pchar) (c : pchar) : pchar :=
  if mem c LETTERS && negb (mem c guessed) then UNDERSCORE else c.

Definition obscure_phrase (phrase : pstr) (guessed : list pchar) : pstr :=
  map (obscure_char guessed) phrase.

(** ** [request_player_move]

    The test of one raw move, as the condition of the [if] at line 131.
    [move in LETTERS] and [move not in VOWELS] are substring tests in
    Python; under [len(move) == 1] they are character membership. *)
Definition valid_move (money : Z) (guessed : list pchar) (move : pstr) : bool :=
  pstr_eqb move EXIT || pstr_eqb move PASS ||
  match move with
  | [c] => mem c LETTERS && negb (mem c guessed) &&
           (negb (mem c VOWELS) || (VOWEL_COST <=? money))
  | _ => false
  end.

(** The [while True] loop: [inputs] are the successive values returned by
    [player.get_move]. The loop returns the first accepted one together
    with the inputs not yet consumed; [None] when the given inputs run out
    before one is accepted (the loop would keep prompting). *)
Fixpoint request_player_move (money : Z) (guessed : list pchar)
    (inputs : list pstr) : option (pstr * list pstr) :=
  match inputs with
  | [] => None
  | move :: rest =>
      if valid_move money guessed move then Some (move, rest)
      else request_player_move money guessed rest
  end.

(** ** Python exceptions raised by the modelled code *)

Inductive PyExc := ValueError | IndexError | TypeError.

Inductive result (A : Type) :=
| Ok (a : A)
| Err (e : PyExc).
Arguments Ok {A} a.
Arguments Err {A} e.

(** [random.choice(seq)]: [seq[randbelow(len(seq))]], where the random
    index is the argument [i] (below [length seq]); an empty sequence
    raises [IndexError]. *)
Definition random_choice {A} (seq : list A) (i : nat) : result A :=
  match nth_error seq i with
  | Some x => Ok x
  | None => Err IndexError
  end.

(** ** [ComputerPlayer] *)

Definition SORTED_FREQUENCIES : pstr := ustr "ZQXJKVBPYGFWMUCLDRHSNIOATE".

(** [SORTED_FREQUENCIES.index(x)]; every letter of [LETTERS] occurs in it,
    so the [ValueError] branch of [str.index] is never taken (it is given
    the index [length s] here). *)
Fixpoint index_of (c : pchar) (s : pstr) : nat :=
  match s with
  | [] => 0%nat
  | x :: s' => if N.eqb c x then 0%nat else S (index_of c s')
  end.

Definition freq_key (c : pchar) : nat := index_of c SORTED_FREQUENCIES.

(** [sorted(..., key=freq_key)]: a stable insertion sort. *)
Fixpoint insert_by_key (c : pchar) (l : pstr) : pstr :=
  match l with
  | [] => [c]
  | y :: l' => if Nat.ltb (freq_key c) (freq_key y) then c :: l
               else y :: insert_by_key c l'
  end.

Definition sort_by_key (l : pstr) : pstr :=
  fold_left (fun acc c => insert_by_key c acc) l [].

(** [random.randint(1, 10) > self.difficulty], the draw being [draw]. *)
Definition smart_coin_flip (difficulty draw : Z) : bool :=
  difficulty <? draw.

Definition get_possible_letters (money : Z) (guessed : list pchar) : pstr :=
  filter (fun l => negb (mem l guessed) &&
                   (negb (mem l VOWELS) || (VOWEL_COST <=? money)))
         LETTERS.

(** [ComputerPlayer.get_move]: [draw] is the value of [randint(1, 10)]
    and [choice] the index drawn by [random.choice]. The coin is flipped
    only when there is a letter to guess. *)
Definition computer_get_move (difficulty money : Z) (guessed : list pchar)
    (draw : Z) (choice : nat) : result pstr :=
  let letters_to_guess := get_possible_letters money guessed in
  match letters_to_guess with
  | [] => Ok PASS
  | l0 :: _ =>
      if smart_coin_flip difficulty draw
      then Ok [last (sort_by_key letters_to_guess) l0]
      else match random_choice letters_to_guess choice with
           | Ok l => Ok [l]
           | Err e => Err e
           end
  end.

(** ** Wheel *)

(** [WheelResult(type)]: the enum lookup by value; any other value,
    a string or not, raises [ValueError]. *)
Definition parse_wheel_result (t : JValue) : result WheelResult :=
  match t with
  | JStr x =>
      if String.eqb x "bankrupt" then Ok BANKRUPT
      else if String.eqb x "loseturn" then Ok LOSE_TURN
      else if String.eqb x "cash" then Ok CASH
      else Err ValueError
  | _ => Err ValueError
  end.

(** [d[k]] on a [dict] given by its pairs. *)
Definition lookup (k : string) (fields : list (string * JValue)) : option JValue :=
  option_map snd (find (fun kv => String.eqb (fst kv) k) fields).

(** The parameters of [WheelSegment.__init__]. *)
Definition init_params : list string := ["text"; "type"; "value"; "prize"]%string.

Definition default_to (d : JValue) (o : option JValue) : JValue :=
  match o with Some v => v | None => d end.

(** The call of [WheelSegment] with one item of the file unpacked as
    keyword arguments. The call raises
    [TypeError] when the item is not a mapping, has a key that is not a
    parameter, or lacks [text] or [type]; then [WheelResult(type)] may
    raise [ValueError]. [value] defaults to [0] and [prize] to [""]. *)
Definition make_segment (item : JValue) : result WheelSegment :=
  match item with
  | JObj fields =>
      if forallb (fun kv => existsb (String.eqb (fst kv)) init_params) fields then
        match lookup "text" fields, lookup "type" fields with
        | Some t, Some ty =>
            match parse_wheel_result ty with
            | Ok k => Ok (mkSegment t k (default_to (JNum 0) (lookup "value" fields))
                                        (default_to (JStr "") (lookup "prize" fields)))
            | Err e => Err e
            end
        | _, _ => Err TypeError
        end
      else Err TypeError
  | _ => Err TypeError
  end.

(** The list comprehension of [load_wheel]: it stops at the first item
    whose [WheelSegment] call raises. *)
Fixpoint load_segments (items : list JValue) : result (list WheelSegment) :=
  match items with
  | [] => Ok []
  | it :: rest =>
      match make_segment it with
      | Err e => Err e
      | Ok s => match load_segments rest with
                | Ok ss => Ok (s :: ss)
                | Err e => Err e
                end
      end
  end.

(** [load_wheel] once [json.load] has parsed the file (a missing file or
    invalid JSON is not modelled). The comprehension iterates the parsed
    value: a list by its items, a [dict] by its keys and a string by its
    characters (each then fails, a string not being a mapping to unpack), anything else
    raises [TypeError] as not iterable. *)
Definition load_wheel (data : JValue) : result (list WheelSegment) :=
  match data with
  | JArr items => load_segments items
  | JObj [] => Ok []
  | JStr EmptyString => Ok []
  | _ => Err TypeError
  end.

Definition spin_wheel (wheel : list WheelSegment) (i : nat) : result WheelSegment :=
  random_choice wheel i.

(** ** Game setup ([main], lines 144-159) *)

Definition computer_name (i : nat) : string :=
  String.append "Počítač " (NilZero.string_of_uint (Nat.to_uint (S i))).

Definition new_players (human_names : list string) (num_computer : nat)
    (difficulty : Z) : list Player :=
  map (fun n => new_player n HumanPlayer) human_names ++
  map (fun i => new_player (computer_name i) (ComputerPlayer difficulty))
      (seq 0 num_computer).

(** [get_random_category_and_phrase]: [ci] and [pi] are the indices drawn
    by the two [random.choice] calls; [py_upper] is [str.upper]. *)
Definition get_random_category_and_phrase (py_upper : pstr -> pstr)
    (phrases : list (string * list pstr)) (ci pi : nat) : result (string * pstr) :=
  match random_choice (map fst phrases) ci with
  | Err e => Err e
  | Ok cat =>
      match nth_error phrases ci with
      | None => Err IndexError
      | Some (_, ps) =>
          match random_choice ps pi with
          | Ok p => Ok (cat, py_upper p)
          | Err e => Err e
          end
      end
  end.

(** The state before the first turn: [ValueError] without players. *)
Definition start_game (ps : list Player) (cat : string) (ph : pstr) : result GameState :=
  match ps with
  | [] => Err ValueError
  | _ => Ok (mkState cat ph [] ps 0%nat)
  end.

(** ** One turn of the [while not winner] loop *)

Inductive Outcome :=
| Continue (s : GameState)
| Exited
| Won (s : GameState) (winner : Player).

Fixpoint replace_nth {A} (n : nat) (x : A) (l : list A) : list A :=
  match l, n with
  | [], _ => []
  | _ :: l', O => x :: l'
  | y :: l', S n' => y :: replace_nth n' x l'
  end.

Definition set_players (s : GameState) (ps : list Player) : GameState :=
  mkState (category s) (phrase s) (guessed s) ps (player_index s).

Definition set_guessed (s : GameState) (g : list pchar) : GameState :=
  mkState (category s) (phrase s) g (players s) (player_index s).

(** [player_index = (player_index + 1) % len(players)] *)
Definition advance (s : GameState) : GameState :=
  mkState (category s) (phrase s) (guessed s) (players s)
          (Nat.modulo (S (player_index s)) (List.length (players s))).

(** [turn s seg inputs]: the current player spins [seg]; [inputs] are the
    values the player's [get_move] returns when asked. The result pairs the
    outcome with the inputs not consumed. [None]: [players[player_index]]
    raises, or the inputs run out inside [request_player_move]. *)
Definition turn (s : GameState) (seg : WheelSegment) (inputs : list pstr)
    : option (Outcome * list pstr) :=
  match nth_error (players s) (player_index s) with
  | None => None
  | Some p =>
      match seg_type seg with
      | BANKRUPT =>
          Some (Continue (advance (set_players s
                  (replace_nth (player_index s) (go_bankrupt p) (players s)))),
                inputs)
      | LOSE_TURN => Some (Continue (advance s), inputs)
      | CASH =>
          match request_player_move (prize_money p) (guessed s) inputs with
          | None => None
          | Some (move, rest) =>
              if pstr_eqb move EXIT then Some (Exited, rest)
              else if pstr_eqb move PASS then Some (Continue (advance s), rest)
              else match move with
                   | [c] =>
                       let s' := set_guessed s (set_add c (guessed s)) in
                       if pstr_eqb (obscure_phrase (phrase s') (guessed s'))
                                   (phrase s')
                       then Some (Won s' p, rest)
                       else Some (Continue (advance s'), rest)
                   | _ =>
                       if pstr_eqb move (phrase s) then Some (Won s p, rest)
                       else Some (Continue (advance s), rest)
                   end
          end
      end
  end.

(** States the loop reaches from [s0], any segment being spun and any
    sequence of answers being given at each turn. *)
Inductive reachable (s0 : GameState) : GameState -> Prop :=
| reach_init : reachable s0 s0
| reach_step s seg inputs s' rest :
    reachable s0 s ->
    turn s seg inputs = Some (Continue s', rest) ->
    reachable s0 s'.

Definition outcome_state (o : Outcome) : option GameState :=
  match o with
  | Continue s => Some s
  | Won s _ => Some s
  | Exited => None
  end.

(** ** Console input ([get_number_between] and the start of [main]) *)

Section ConsoleInput.

(** [int(line)] on one line of input: [Some n] when it parses, [None] when
    [int] raises [ValueError]. *)
Variable py_int : string -> option Z.

(** [get_number_between]: [inputs] are the successive lines [input]
    returns. The loop returns the first line that parses to a number in
    [min_val..max_val], with the lines not yet read; [None] when the lines
    run out before (the loop keeps asking). *)
Fixpoint get_number_between (min_val max_val : Z) (inputs : list string)
    : option (Z * list string) :=
  match inputs with
  | [] => None
  | line :: rest =>
      match py_int line with
      | Some n =>
          if (min_val <=? n) && (n <=? max_val) then Some (n, rest)
          else get_number_between min_val max_val rest
      | None => get_number_between min_val max_val rest
      end
  end.

(** Lines 144-150 of [main]: the number of humans, one name per human, the
    number of computers, and the difficulty, asked only when there is a
    computer (it stays [None] otherwise, and no player uses it). [None]:
    the lines run out ([input] raises [EOFError]). *)
Definition read_players (inputs : list string) : option (list Player * list string) :=
  match get_number_between 0 10 inputs with
  | None => None
  | Some (num_human, r1) =>
      if Nat.leb (Z.to_nat num_human) (List.length r1) then
        let names := firstn (Z.to_nat num_human) r1 in
        match get_number_between 0 10 (skipn (Z.to_nat num_human) r1) with
        | None => None
        | Some (num_computer, r2) =>
            if 1 <=? num_computer then
              match get_number_between 1 10 r2 with
              | None => None
              | Some (difficulty, r3) =>
                  Some (new_players names (Z.to_nat num_computer) difficulty, r3)
              end
            else Some (new_players names 0 0, r2)
        end
      else None
  end.

End ConsoleInput.

(** * Properties *)

(** ** Auxiliary lemmas *)

Lemma mem_In (c : pchar) (l : list pchar) : mem c l = true <-> In c l.
Proof.
  unfold mem. rewrite existsb_exists. split.
  - intros [x [Hx Heq]]. apply N.eqb_eq in Heq. subst. exact Hx.
  - intros H. exists c. split; [exact H | apply N.eqb_refl].
Qed.

Lemma mem_false_not_In (c : pchar) (l : list pchar) : mem c l = false <-> ~ In c l.
Proof.
  rewrite <- mem_In. destruct (mem c l); split; congruence.
Qed.

Lemma pstr_eqb_eq (a b : pstr) : pstr_eqb a b = true <-> a = b.
Proof.
  revert b. induction a as [|x a IH]; intros [|y b]; simpl; try (split; congruence).
  rewrite andb_true_iff, N.eqb_eq, IH. split.
  - intros [-> ->]. reflexivity.
  - intros H. injection H. auto.
Qed.

Lemma pstr_eqb_refl (a : pstr) : pstr_eqb a a = true.
Proof. apply pstr_eqb_eq. reflexivity. Qed.

(** A one-character move is neither ["EXIT"] nor ["PASS"]. *)
Lemma valid_move_single (money : Z) (g : list pchar) (c : pchar) :
  valid_move money g [c] =
  mem c LETTERS && negb (mem c g) && (negb (mem c VOWELS) || (VOWEL_COST <=? money)).
Proof. unfold valid_move. simpl. rewrite !andb_false_r. reflexivity. Qed.

(** A move the loop hands back is ["EXIT"], ["PASS"] or one letter. *)
Lemma request_player_move_shape (money : Z) (g : list pchar) (inputs : list pstr)
    (move : pstr) (rest : list pstr) :
  request_player_move money g inputs = Some (move, rest) ->
  valid_move money g move = true.
Proof.
  induction inputs as [|m ms IH]; simpl; [discriminate|].
  destruct (valid_move money g m) eqn:Hv.
  - intros H. injection H as <- <-. exact Hv.
  - exact IH.
Qed.

Lemma valid_move_cases (money : Z) (g : list pchar) (move : pstr) :
  valid_move money g move = true ->
  move = EXIT \/ move = PASS \/ exists c, move = [c] /\ In c LETTERS.
Proof.
  intros H. destruct (pstr_eqb move EXIT) eqn:He.
  { left. apply pstr_eqb_eq. exact He. }
  destruct (pstr_eqb move PASS) eqn:Hp.
  { right; left. apply pstr_eqb_eq. exact Hp. }
  right; right. destruct move as [|c [|d m]].
  - unfold valid_move in H. rewrite He, Hp in H. discriminate.
  - exists c. split; [reflexivity|].
    rewrite valid_move_single in H.
    apply andb_true_iff in H as [H _]. apply andb_true_iff in H as [H _].
    apply mem_In. exact H.
  - unfold valid_move in H. rewrite He, Hp in H. discriminate.
Qed.

(** ** C2: [obscure_phrase] *)

Example obscure_hello :
  obscure_phrase (ustr "HELLO, WORLD") (ustr "LO") = ustr "__LLO, _O_L_".
Proof. reflexivity. Qed.

(** C2. [obscure_phrase p g] has the length of [p]; at every index it holds
    ['_'] when the character of [p] there is one of the 26 letters [A-Z] and
    not in [g], and that character otherwise. With no guessed letter every
    letter is hidden; with all 26 guessed the phrase comes back unchanged. *)
Theorem obscure_phrase_spec (p : pstr) (g : list pchar) :
  List.length (obscure_phrase p g) = List.length p /\
  (forall i c, nth_error p i = Some c ->
     nth_error (obscure_phrase p g) i =
     Some (if mem c LETTERS && negb (mem c g) then UNDERSCORE else c)) /\
  obscure_phrase p [] = map (fun c => if mem c LETTERS then UNDERSCORE else c) p /\
  obscure_phrase p LETTERS = p.
Proof.
  unfold obscure_phrase. split; [|split; [|split]].
  - apply length_map.
  - intros i c H. rewrite nth_error_map, H. reflexivity.
  - apply map_ext. intros c. unfold obscure_char. simpl.
    rewrite andb_true_r. reflexivity.
  - rewrite <- (map_id p) at 2. apply map_ext. intros c. unfold obscure_char.
    destruct (mem c LETTERS); reflexivity.
Qed.

(** ** C1: a move longer than one character *)

Definition cash_segment : WheelSegment :=
  mkSegment (JStr "500") CASH (JNum 500) (JStr "").

Definition hello_state : GameState :=
  mkState "Pozdrav" (ustr "HELLO WORLD") [] [new_player "Ana" HumanPlayer] 0%nat.

(** C1 (refuted at the phrase itself). [request_player_move] accepts only
    ["EXIT"], ["PASS"] and single letters: the full phrase ["HELLO WORLD"]
    typed on a cash spin, with no letter guessed, is rejected and the
    player is asked again, so the turn does not end and nobody wins; the
    [move == phrase] branch of [main] is never reached by a move of two or
    more characters. *)
Theorem phrase_guess_rejected :
  valid_move 0 [] (ustr "HELLO WORLD") = false /\
  request_player_move 0 [] [ustr "HELLO WORLD"] = None /\
  turn hello_state cash_segment [ustr "HELLO WORLD"] = None /\
  (forall money g inputs move rest,
     request_player_move money g inputs = Some (move, rest) ->
     move = EXIT \/ move = PASS \/ exists c, move = [c] /\ In c LETTERS).
Proof.
  split; [reflexivity|]. split; [reflexivity|]. split; [reflexivity|].
  intros money g inputs move rest H.
  apply (valid_move_cases money g), (request_player_move_shape money g inputs move rest), H.
Qed.

(** ** C4: vowel gating in [request_player_move] *)

(** C4. For a letter [ch] of [A-Z] not yet guessed, the one-character move
    [ch] is accepted iff [ch] is a consonant or the player has at least 250;
    an already guessed letter is rejected. The loop returns an accepted move
    at once, skips a rejected one and asks again, and a rejected answer on a
    cash spin leaves the turn exactly as if it had not been given. *)
Theorem vowel_gating (money : Z) (g : list pchar) (ch : pchar) :
  In ch LETTERS -> ~ In ch g ->
  valid_move money g [ch] = negb (mem ch VOWELS) || (VOWEL_COST <=? money) /\
  (forall c, In c g -> valid_move money g [c] = false) /\
  (forall m rest, valid_move money g m = true ->
     request_player_move money g (m :: rest) = Some (m, rest)) /\
  (forall m rest, valid_move money g m = false ->
     request_player_move money g (m :: rest) = request_player_move money g rest) /\
  (forall s seg p m rest,
     guessed s = g -> nth_error (players s) (player_index s) = Some p ->
     prize_money p = money -> seg_type seg = CASH ->
     valid_move money g m = false ->
     turn s seg (m :: rest) = turn s seg rest).
Proof.
  intros Hl Hg. split; [|split; [|split; [|split]]].
  - rewrite valid_move_single.
    apply mem_In in Hl. apply mem_false_not_In in Hg. rewrite Hl, Hg. reflexivity.
  - intros c Hc. rewrite valid_move_single. apply mem_In in Hc. rewrite Hc.
    rewrite andb_false_r. reflexivity.
  - intros m rest Hv. simpl. rewrite Hv. reflexivity.
  - intros m rest Hv. simpl. rewrite Hv. reflexivity.
  - intros s seg p m rest <- Hp <- Ht Hv. unfold turn. rewrite Hp, Ht.
    simpl. rewrite Hv. reflexivity.
Qed.

(** ** The computer player's choice *)

Lemma get_possible_letters_In (money : Z) (g : list pchar) (c : pchar) :
  In c (get_possible_letters money g) <->
  In c LETTERS /\ ~ In c g /\ (~ In c VOWELS \/ VOWEL_COST <= money).
Proof.
  unfold get_possible_letters. rewrite filter_In, andb_true_iff, orb_true_iff,
    negb_true_iff, negb_true_iff, !mem_false_not_In, Z.leb_le.
  tauto.
Qed.

Lemma LETTERS_NoDup : NoDup LETTERS.
Proof. repeat constructor; cbv; intuition discriminate. Qed.

Definition key_le (a b : pchar) : Prop := (freq_key a <= freq_key b)%nat.

Lemma insert_by_key_perm (c : pchar) (l : pstr) :
  Permutation (insert_by_key c l) (c :: l).
Proof.
  induction l as [|y l IH]; simpl; [reflexivity|].
  destruct (Nat.ltb (freq_key c) (freq_key y)); [reflexivity|].
  rewrite IH. apply perm_swap.
Qed.

Lemma sort_by_key_perm_aux (l acc : pstr) :
  Permutation (fold_left (fun acc c => insert_by_key c acc) l acc) (l ++ acc).
Proof.
  revert acc. induction l as [|c l IH]; intros acc; simpl; [reflexivity|].
  rewrite IH, insert_by_key_perm. symmetry. apply Permutation_middle.
Qed.

Lemma sort_by_key_perm (l : pstr) : Permutation (sort_by_key l) l.
Proof. unfold sort_by_key. rewrite sort_by_key_perm_aux, app_nil_r. reflexivity. Qed.

Lemma insert_by_key_HdRel (y c : pchar) (l : pstr) :
  HdRel key_le y l -> key_le y c -> HdRel key_le y (insert_by_key c l).
Proof.
  intros Hd Hyc. destruct l as [|z l]; simpl.
  - constructor. exact Hyc.
  - destruct (Nat.ltb (freq_key c) (freq_key z)); constructor; [exact Hyc|].
    inversion Hd. assumption.
Qed.

Lemma insert_by_key_sorted (c : pchar) (l : pstr) :
  Sorted key_le l -> Sorted key_le (insert_by_key c l).
Proof.
  induction l as [|y l IH]; intros Hs; simpl.
  - repeat constructor.
  - destruct (Nat.ltb (freq_key c) (freq_key y)) eqn:E.
    + apply Nat.ltb_lt in E. constructor; [exact Hs|].
      constructor. unfold key_le. lia.
    + apply Nat.ltb_ge in E. inversion Hs as [|? ? Hs' Hd]; subst.
      constructor; [apply IH, Hs'|].
      apply insert_by_key_HdRel; [exact Hd|]. unfold key_le. lia.
Qed.

Lemma sort_by_key_sorted (l : pstr) : Sorted key_le (sort_by_key l).
Proof.
  unfold sort_by_key.
  assert (H : forall acc, Sorted key_le acc ->
            Sorted key_le (fold_left (fun acc c => insert_by_key c acc) l acc)).
  { induction l as [|c l IH]; intros acc Hacc; simpl; [exact Hacc|].
    apply IH, insert_by_key_sorted, Hacc. }
  apply H. constructor.
Qed.

(** The last element of a sorted list has the greatest key. *)
Lemma last_sorted_max (l : pstr) (d : pchar) :
  l <> [] -> Sorted key_le l ->
  In (last l d) l /\ forall c, In c l -> key_le c (last l d).
Proof.
  intros Hne Hs. apply Sorted_StronglySorted in Hs;
    [|intros a b e; unfold key_le; lia].
  induction l as [|a l IH]; [congruence|].
  inversion Hs as [|? ? Hs' Hall]; subst.
  destruct l as [|b l].
  - simpl. split; [left; reflexivity|]. intros c [<-|[]]. unfold key_le. lia.
  - assert (Hl : last (a :: b :: l) d = last (b :: l) d) by reflexivity.
    rewrite Hl. destruct (IH ltac:(discriminate) Hs') as [Hin Hmax].
    split; [right; exact Hin|].
    intros c [<-|Hc]; [|apply Hmax, Hc].
    rewrite Forall_forall in Hall. apply Hall, Hin.
Qed.

Example computer_smart_pick :
  computer_get_move 3 0 (ustr "ETS") 7 0 = Ok (ustr "N").
Proof. reflexivity. Qed.

Example computer_random_pick :
  computer_get_move 3 0 [] 2 1 = Ok (ustr "C").
Proof. reflexivity. Qed.

Example computer_passes :
  computer_get_move 3 0 (ustr "BCDFGHJKLMNPQRSTVWXYZ") 7 0 = Ok PASS.
Proof. reflexivity. Qed.

(** ** C5: the computer never proposes a forbidden letter *)

(** C5. Whatever the guessed letters, money and random draws, the
    computer's move is ["PASS"] or a single letter of [A-Z] that is not
    guessed yet and is not a vowel when the money is below 250; and it is
    ["PASS"] whenever no letter is eligible. *)
Theorem computer_move_safe (difficulty money : Z) (g : list pchar)
    (draw : Z) (choice : nat) :
  (get_possible_letters money g = [] ->
   computer_get_move difficulty money g draw choice = Ok PASS) /\
  (forall move, computer_get_move difficulty money g draw choice = Ok move ->
   move = PASS \/
   exists c, move = [c] /\ In c LETTERS /\ ~ In c g /\
             (money < VOWEL_COST -> ~ In c VOWELS)).
Proof.
  split.
  - intros H. unfold computer_get_move. rewrite H. reflexivity.
  - intros move. unfold computer_get_move.
    assert (Hsafe : forall c, In c (get_possible_letters money g) ->
              exists c', [c] = [c'] /\ In c' LETTERS /\ ~ In c' g /\
                         (money < VOWEL_COST -> ~ In c' VOWELS)).
    { intros c Hc. apply get_possible_letters_In in Hc as (Hl & Hg & Hv).
      exists c. split; [reflexivity|]. split; [exact Hl|]. split; [exact Hg|].
      intros Hm. destruct Hv as [Hv|Hv]; [exact Hv|lia]. }
    destruct (get_possible_letters money g) as [|l0 ls] eqn:E.
    + intros H. injection H as <-. left. reflexivity.
    + destruct (smart_coin_flip difficulty draw).
      * intros H. injection H as <-. right. apply Hsafe.
        apply (Permutation_in _ (sort_by_key_perm (l0 :: ls))).
        apply last_sorted_max; [|apply sort_by_key_sorted].
        intros Hnil. pose proof (sort_by_key_perm (l0 :: ls)) as Hp.
        rewrite Hnil in Hp. apply Permutation_nil in Hp. discriminate.
      * unfold random_choice. destruct (nth_error (l0 :: ls) choice) eqn:En;
          [|discriminate].
        intros H. injection H as <-. right. apply Hsafe.
        apply nth_error_In with (n := choice). exact En.
Qed.

(** ** C8: smart or random choice *)

Definition draws : list Z := map Z.of_nat (seq 1 10).

(** C8. For a difficulty in [1..10], exactly [10 - difficulty] of the ten
    values [randint(1, 10)] can draw make the computer smart. With at least
    one eligible letter, a smart computer proposes the eligible letter of
    greatest index in ["ZQXJKVBPYGFWMUCLDRHSNIOATE"], and a non-smart one
    the eligible letter at the index drawn by [random.choice]; the eligible
    letters are distinct, so each of them is drawn by exactly one index. *)
Theorem computer_choice (difficulty money : Z) (g : list pchar) :
  1 <= difficulty <= 10 ->
  get_possible_letters money g <> [] ->
  List.length (filter (smart_coin_flip difficulty) draws) = Z.to_nat (10 - difficulty) /\
  (forall draw choice, difficulty < draw ->
     exists c, computer_get_move difficulty money g draw choice = Ok [c] /\
       In c (get_possible_letters money g) /\
       forall c', In c' (get_possible_letters money g) ->
         (freq_key c' <= freq_key c)%nat) /\
  (forall draw choice, draw <= difficulty ->
     (choice < List.length (get_possible_letters money g))%nat ->
     exists c, nth_error (get_possible_letters money g) choice = Some c /\
       computer_get_move difficulty money g draw choice = Ok [c]) /\
  NoDup (get_possible_letters money g).
Proof.
  intros Hd Hne. split; [|split; [|split]].
  - assert (Hc : difficulty = 1 \/ difficulty = 2 \/ difficulty = 3 \/
                 difficulty = 4 \/ difficulty = 5 \/ difficulty = 6 \/
                 difficulty = 7 \/ difficulty = 8 \/ difficulty = 9 \/
                 difficulty = 10) by lia.
    repeat destruct Hc as [-> | Hc]; subst; reflexivity.
  - intros draw choice Hdraw. unfold computer_get_move.
    unfold smart_coin_flip. replace (difficulty <? draw) with true
      by (symmetry; apply Z.ltb_lt; exact Hdraw).
    destruct (get_possible_letters money g) as [|l0 ls] eqn:E; [congruence|].
    exists (last (sort_by_key (l0 :: ls)) l0). split; [reflexivity|].
    assert (Hs : sort_by_key (l0 :: ls) <> []).
    { intros Hnil. pose proof (sort_by_key_perm (l0 :: ls)) as Hp.
      rewrite Hnil in Hp. apply Permutation_nil in Hp. discriminate. }
    destruct (last_sorted_max _ l0 Hs (sort_by_key_sorted (l0 :: ls))) as [Hin Hmax].
    split.
    + apply (Permutation_in _ (sort_by_key_perm (l0 :: ls))). exact Hin.
    + intros c' Hc'. apply Hmax.
      apply (Permutation_in _ (Permutation_sym (sort_by_key_perm (l0 :: ls)))).
      exact Hc'.
  - intros draw choice Hdraw Hch. unfold computer_get_move.
    unfold smart_coin_flip. replace (difficulty <? draw) with false
      by (symmetry; apply Z.ltb_ge; exact Hdraw).
    destruct (nth_error (get_possible_letters money g) choice) as [c|] eqn:En.
    + exists c. split; [reflexivity|].
      destruct (get_possible_letters money g) as [|l0 ls]; [congruence|].
      unfold random_choice. rewrite En. reflexivity.
    + apply nth_error_None in En. lia.
  - apply NoDup_filter, LETTERS_NoDup.
Qed.

(** ** Engine steps *)

Lemma replace_nth_length {A} (n : nat) (x : A) (l : list A) :
  List.length (replace_nth n x l) = List.length l.
Proof.
  revert n. induction l as [|y l IH]; intros [|n]; simpl; auto.
Qed.

Lemma replace_nth_same {A} (n : nat) (x y : A) (l : list A) :
  nth_error l n = Some y -> nth_error (replace_nth n x l) n = Some x.
Proof.
  revert n. induction l as [|z l IH]; intros [|n]; simpl; try discriminate; auto.
Qed.

Lemma replace_nth_other {A} (n j : nat) (x : A) (l : list A) :
  j <> n -> nth_error (replace_nth n x l) j = nth_error l j.
Proof.
  revert n j. induction l as [|z l IH]; intros [|n] [|j] Hne; simpl; auto.
  congruence.
Qed.

Lemma replace_nth_Forall {A} (P : A -> Prop) (n : nat) (x : A) (l : list A) :
  Forall P l -> P x -> Forall P (replace_nth n x l).
Proof.
  revert n. induction l as [|z l IH]; intros [|n] Hl Hx; simpl; auto;
    inversion Hl; subst; constructor; auto.
Qed.



Lemma set_add_incl (c : pchar) (g : list pchar) :
  incl g (set_add c g) /\ In c (set_add c g).
Proof.
  unfold set_add. destruct (mem c g) eqn:E.
  - split; [apply incl_refl|]. apply mem_In, E.
  - split; [apply incl_tl, incl_refl|left; reflexivity].
Qed.

(** ** C7: a bankrupt spin *)

(** C7. On a [BANKRUPT] spin the current player's money becomes 0 (name
    and prizes kept), no answer is taken from the player (the inputs come
    back untouched), the phrase, the guessed letters, the category and every
    other player are unchanged, and the index moves to the next player
    modulo the number of players. *)
Theorem bankrupt_turn (s : GameState) (seg : WheelSegment) (inputs : list pstr)
    (p : Player) :
  nth_error (players s) (player_index s) = Some p ->
  seg_type seg = BANKRUPT ->
  exists s', turn s seg inputs = Some (Continue s', inputs) /\
    phrase s' = phrase s /\ guessed s' = guessed s /\ category s' = category s /\
    List.length (players s') = List.length (players s) /\
    nth_error (players s') (player_index s) = Some (go_bankrupt p) /\
    prize_money (go_bankrupt p) = 0 /\ name (go_bankrupt p) = name p /\
    prizes (go_bankrupt p) = prizes p /\
    (forall j, j <> player_index s -> nth_error (players s') j = nth_error (players s) j) /\
    player_index s' = Nat.modulo (S (player_index s)) (List.length (players s)).
Proof.
  intros Hp Ht. unfold turn. rewrite Hp, Ht.
  eexists. split; [reflexivity|]. simpl.
  repeat split; try reflexivity.
  - apply replace_nth_length.
  - apply (replace_nth_same _ _ p), Hp.
  - intros j Hj. apply replace_nth_other, Hj.
  - rewrite replace_nth_length. reflexivity.
Qed.

Definition rich_state : GameState :=
  mkState "Pozdrav" (ustr "HELLO WORLD") []
          [mkPlayer "Ana" 500 [] HumanPlayer; new_player "Počítač 1" (ComputerPlayer 5)]
          0%nat.

Definition bankrupt_segment : WheelSegment :=
  mkSegment (JStr "BANKROT") BANKRUPT (JNum 0) (JStr "").

Lemma bankrupt_turn_witness :
  exists s', turn rich_state bankrupt_segment [] = Some (Continue s', []) /\
    phrase s' = phrase rich_state /\ guessed s' = guessed rich_state /\
    category s' = category rich_state /\
    List.length (players s') = List.length (players rich_state) /\
    nth_error (players s') 0 = Some (go_bankrupt (mkPlayer "Ana" 500 [] HumanPlayer)) /\
    prize_money (go_bankrupt (mkPlayer "Ana" 500 [] HumanPlayer)) = 0 /\
    name (go_bankrupt (mkPlayer "Ana" 500 [] HumanPlayer)) = "Ana"%string /\
    prizes (go_bankrupt (mkPlayer "Ana" 500 [] HumanPlayer)) = [] /\
    (forall j, j <> 0%nat -> nth_error (players s') j = nth_error (players rich_state) j) /\
    player_index s' = 1%nat.
Proof.
  apply (bankrupt_turn rich_state bankrupt_segment [] (mkPlayer "Ana" 500 [] HumanPlayer));
    reflexivity.
Defined.

(** ** C6: an accepted letter *)






(** ** What one turn changes *)

Definition broke (p : Player) : Prop := prize_money p = 0.

Lemma turn_frame (s : GameState) (seg : WheelSegment) (inputs rest : list pstr)
    (o : Outcome) (s' : GameState) :
  turn s seg inputs = Some (o, rest) -> outcome_state o = Some s' ->
  phrase s' = phrase s /\
  (guessed s' = guessed s \/ exists c, guessed s' = set_add c (guessed s)) /\
  (Forall broke (players s) -> Forall broke (players s')).
Proof.
  unfold turn. destruct (nth_error (players s) (player_index s)) as [p|] eqn:Hp;
    [|discriminate].
  destruct (seg_type seg).
  - intros H Ho. injection H as <- _. injection Ho as <-. simpl.
    split; [reflexivity|]. split; [left; reflexivity|].
    intros Hall. apply replace_nth_Forall; [exact Hall|reflexivity].
  - intros H Ho. injection H as <- _. injection Ho as <-. simpl. auto.
  - destruct (request_player_move (prize_money p) (guessed s) inputs)
      as [[move r]|]; [|discriminate].
    destruct (pstr_eqb move EXIT).
    { intros H Ho. injection H as <- _. discriminate. }
    destruct (pstr_eqb move PASS).
    { intros H Ho. injection H as <- _. injection Ho as <-. simpl. auto. }
    destruct move as [|c [|d m]].
    + destruct (pstr_eqb [] (phrase s)); intros H Ho; injection H as <- _;
        injection Ho as <-; simpl; auto.
    + destruct (pstr_eqb _ _); intros H Ho; injection H as <- _;
        injection Ho as <-; simpl; split; auto; split; auto;
        right; exists c; reflexivity.
    + destruct (pstr_eqb (c :: d :: m) (phrase s)); intros H Ho; injection H as <- _;
        injection Ho as <-; simpl; auto.
Qed.

Lemma reachable_frame (s0 s : GameState) :
  reachable s0 s ->
  phrase s = phrase s0 /\ incl (guessed s0) (guessed s) /\
  (Forall broke (players s0) -> Forall broke (players s)).
Proof.
  induction 1 as [|s seg inputs s' rest Hr IH Ht].
  - split; [reflexivity|]. split; [apply incl_refl|auto].
  - destruct IH as (IHp & IHg & IHm).
    destruct (turn_frame s seg inputs rest (Continue s') s' Ht eq_refl)
      as (Hp & Hg & Hm).
    split; [congruence|]. split; [|auto].
    destruct Hg as [-> | [c ->]]; [exact IHg|].
    apply (incl_tran IHg), set_add_incl.
Qed.

Lemma new_players_broke (hn : list string) (nc : nat) (d : Z) :
  Forall broke (new_players hn nc d).
Proof.
  unfold new_players. apply Forall_app. split; apply Forall_forall;
    intros p Hp; apply in_map_iff in Hp as [x [<- _]]; reflexivity.
Qed.

(** ** C3: nobody ever has money *)

(** C3. In every state the loop reaches from the start of a game, every
    player has 0 money (players start at 0, no turn calls [add_money], a
    bankrupt spin sets 0). Hence no vowel is ever accepted from any player:
    the one-character move of a vowel fails [valid_move], and
    [request_player_move] never hands a vowel back to the engine. *)
Theorem money_always_zero (hn : list string) (nc : nat) (d : Z) (cat : string)
    (ph : pstr) (s0 s : GameState) :
  start_game (new_players hn nc d) cat ph = Ok s0 ->
  reachable s0 s ->
  Forall (fun p => prize_money p = 0) (players s) /\
  (forall p, In p (players s) -> forall v, In v VOWELS ->
     valid_move (prize_money p) (guessed s) [v] = false /\
     forall inputs move rest,
       request_player_move (prize_money p) (guessed s) inputs = Some (move, rest) ->
       move <> [v]).
Proof.
  intros Hstart Hr.
  assert (H0 : Forall broke (players s0)).
  { destruct (new_players hn nc d) eqn:E; [discriminate|].
    injection Hstart as <-. simpl. rewrite <- E. apply new_players_broke. }
  destruct (reachable_frame s0 s Hr) as (_ & _ & Hm).
  specialize (Hm H0).
  assert (Hv : forall p, In p (players s) -> forall v, In v VOWELS ->
            valid_move (prize_money p) (guessed s) [v] = false).
  { intros p Hp v Hvw. rewrite Forall_forall in Hm.
    rewrite valid_move_single, (Hm p Hp).
    apply mem_In in Hvw. rewrite Hvw. simpl. rewrite !andb_false_r. reflexivity. }
  split; [exact Hm|].
  intros p Hp v Hvw. split; [apply (Hv p Hp v Hvw)|].
  intros inputs move rest Hreq Heq. subst move.
  apply request_player_move_shape in Hreq.
  rewrite (Hv p Hp v Hvw) in Hreq. discriminate.
Qed.

(** A game of two humans on ["HELLO WORLD"], as [main] starts it, and the
    states after three turns of it. *)
Definition game_start : GameState :=
  mkState "Pozdrav" (ustr "HELLO WORLD") [] (new_players ["Ana"; "Bob"]%string 0 1) 0%nat.

(** Ana has spun [BANKROT]. *)
Definition played1 : GameState :=
  mkState "Pozdrav" (ustr "HELLO WORLD") [] (new_players ["Ana"; "Bob"]%string 0 1) 1%nat.

(** Bob has spun cash and answered [E] (refused), then [H]. *)
Definition played2 : GameState :=
  mkState "Pozdrav" (ustr "HELLO WORLD") (ustr "H")
          (new_players ["Ana"; "Bob"]%string 0 1) 0%nat.

(** Ana has spun cash and answered [L]. *)
Definition played3 : GameState :=
  mkState "Pozdrav" (ustr "HELLO WORLD") (ustr "LH")
          (new_players ["Ana"; "Bob"]%string 0 1) 1%nat.

Lemma played3_reachable : reachable game_start played3.
Proof.
  apply (reach_step game_start played2 cash_segment [ustr "L"] played3 []);
    [|reflexivity].
  apply (reach_step game_start played1 cash_segment [ustr "E"; ustr "H"] played2 []);
    [|reflexivity].
  apply (reach_step game_start game_start bankrupt_segment [] played1 []);
    [apply reach_init|reflexivity].
Qed.

Lemma money_always_zero_witness :
  Forall (fun p => prize_money p = 0) (players played3) /\
  (forall p, In p (players played3) -> forall v, In v VOWELS ->
     valid_move (prize_money p) (guessed played3) [v] = false /\
     forall inputs move rest,
       request_player_move (prize_money p) (guessed played3) inputs = Some (move, rest) ->
       move <> [v]).
Proof.
  apply (money_always_zero ["Ana"; "Bob"]%string 0 1 "Pozdrav" (ustr "HELLO WORLD")
           game_start played3); [reflexivity|exact played3_reachable].
Defined.

(** ** C10: the phrase is fixed, the guessed letters only grow *)

(** C10. When setup picks the phrase [ph] (the [str.upper] of a phrase of
    the catalogue) and starts the game, every reachable state keeps [ph] as
    its phrase and contains the guessed letters of the start; and every turn
    from a reachable state keeps the phrase and either leaves the guessed
    letters as they are or adds one letter to them, never removing any. *)
Theorem phrase_fixed_guessed_grow (py_upper : pstr -> pstr)
    (catalog : list (string * list pstr)) (ci pi : nat) (cat : string) (ph : pstr)
    (ps : list Player) (s0 : GameState) :
  get_random_category_and_phrase py_upper catalog ci pi = Ok (cat, ph) ->
  start_game ps cat ph = Ok s0 ->
  (exists raw ps', nth_error catalog ci = Some (cat, ps') /\ In raw ps' /\
                   ph = py_upper raw) /\
  forall s, reachable s0 s ->
    phrase s = ph /\ incl (guessed s0) (guessed s) /\
    forall seg inputs o rest s',
      turn s seg inputs = Some (o, rest) -> outcome_state o = Some s' ->
      phrase s' = ph /\ incl (guessed s) (guessed s') /\
      (guessed s' = guessed s \/ exists c, guessed s' = set_add c (guessed s)).
Proof.
  intros Hpick Hstart.
  assert (Hph0 : phrase s0 = ph).
  { destruct ps; [discriminate|]. injection Hstart as <-. reflexivity. }
  split.
  - unfold get_random_category_and_phrase, random_choice in Hpick.
    rewrite nth_error_map in Hpick.
    destruct (nth_error catalog ci) as [[k phs]|] eqn:Hc; [|discriminate].
    simpl in Hpick. destruct (nth_error phs pi) as [raw|] eqn:Hr; [|discriminate].
    injection Hpick as <- <-. exists raw, phs.
    split; [reflexivity|]. split; [apply nth_error_In with pi; exact Hr|reflexivity].
  - intros s Hr. destruct (reachable_frame s0 s Hr) as (Hp & Hg & _).
    split; [congruence|]. split; [exact Hg|].
    intros seg inputs o rest s' Ht Ho.
    destruct (turn_frame s seg inputs rest o s' Ht Ho) as (Hp' & Hg' & _).
    split; [congruence|]. split; [|exact Hg'].
    destruct Hg' as [-> | [c ->]]; [apply incl_refl|apply set_add_incl].
Qed.

(** ASCII [str.upper], enough for the concrete catalogue below. *)
Definition ascii_upper (p : pstr) : pstr :=
  map (fun c => if (97 <=? c)%N && (c <=? 122)%N then (c - 32)%N else c) p.

Definition small_catalog : list (string * list pstr) :=
  [("Pozdrav"%string, [ustr "hello world"])].

Lemma phrase_fixed_guessed_grow_witness :
  (exists raw ps', nth_error small_catalog 0 = Some ("Pozdrav"%string, ps') /\
     In raw ps' /\ ustr "HELLO WORLD" = ascii_upper raw) /\
  forall s, reachable hello_state s ->
    phrase s = ustr "HELLO WORLD" /\ incl (guessed hello_state) (guessed s) /\
    forall seg inputs o rest s',
      turn s seg inputs = Some (o, rest) -> outcome_state o = Some s' ->
      phrase s' = ustr "HELLO WORLD" /\ incl (guessed s) (guessed s') /\
      (guessed s' = guessed s \/ exists c, guessed s' = set_add c (guessed s)).
Proof.
  apply (phrase_fixed_guessed_grow ascii_upper small_catalog 0 0 "Pozdrav"
           (ustr "HELLO WORLD") [new_player "Ana" HumanPlayer]); reflexivity.
Defined.

(** ** C9: loading and spinning the wheel *)

Lemma known_keys_forallb (fields : list (string * JValue)) :
  forallb (fun kv => existsb (String.eqb (fst kv)) init_params) fields = true <->
  Forall (fun kv => In (fst kv) init_params) fields.
Proof.
  rewrite forallb_forall, Forall_forall. split; intros H x Hx; specialize (H x Hx).
  - apply existsb_exists in H as (k & Hk & He). apply String.eqb_eq in He.
    rewrite He. exact Hk.
  - apply existsb_exists. exists (fst x). split; [exact H|apply String.eqb_refl].
Qed.

Lemma load_segments_app (pre : list JValue) (item : JValue) (post : list JValue)
    (e : PyExc) :
  Forall (fun x => exists s, make_segment x = Ok s) pre ->
  make_segment item = Err e -> load_segments (pre ++ item :: post) = Err e.
Proof.
  intros Hpre He. induction Hpre as [|x pre [s Hs] _ IH]; simpl.
  - rewrite He. reflexivity.
  - rewrite Hs, IH. reflexivity.
Qed.

(** C9 (corrected). There is no [InvalidWheelError]. [WheelSegment(...)]
    with an item unpacked raises [TypeError] when the item is not an object,
    has a key other than [text], [type], [value] and [prize], or lacks
    [text] or [type]; otherwise it raises [ValueError] when [type] is not
    ["bankrupt"], ["loseturn"] or ["cash"]. [load_wheel] raises the error of
    the first failing item. The value is stored as given, never checked.
    An empty file list loads as the empty wheel, and spinning it raises
    [IndexError] (from [random.choice]); on a non-empty wheel the spin
    returns the segment at the drawn index. *)
Theorem wheel_load_and_spin :
  (forall item, (forall fields, item <> JObj fields) ->
     make_segment item = Err TypeError) /\
  (forall fields k v, In (k, v) fields -> ~ In k init_params ->
     make_segment (JObj fields) = Err TypeError) /\
  (forall fields, lookup "text" fields = None \/ lookup "type" fields = None ->
     make_segment (JObj fields) = Err TypeError) /\
  (forall fields t ty, Forall (fun kv => In (fst kv) init_params) fields ->
     lookup "text" fields = Some t -> lookup "type" fields = Some ty ->
     ty <> JStr "bankrupt" -> ty <> JStr "loseturn" -> ty <> JStr "cash" ->
     make_segment (JObj fields) = Err ValueError) /\
  (forall pre item post e, Forall (fun x => exists s, make_segment x = Ok s) pre ->
     make_segment item = Err e -> load_wheel (JArr (pre ++ item :: post)) = Err e) /\
  (forall fields seg, make_segment (JObj fields) = Ok seg ->
     seg_value seg = default_to (JNum 0) (lookup "value" fields)) /\
  load_wheel (JArr []) = Ok [] /\
  (forall i, spin_wheel [] i = Err IndexError) /\
  (forall wheel i, (i < List.length wheel)%nat ->
     exists seg, nth_error wheel i = Some seg /\ spin_wheel wheel i = Ok seg).
Proof.
  split.
  { intros [] H; try reflexivity. exfalso. exact (H fields eq_refl). }
  split.
  { intros fields k v Hin Hk. unfold make_segment.
    destruct (forallb _ fields) eqn:Hf; [|reflexivity].
    apply known_keys_forallb in Hf. rewrite Forall_forall in Hf.
    exfalso. exact (Hk (Hf (k, v) Hin)). }
  split.
  { intros fields Hn. unfold make_segment. destruct (forallb _ fields); [|reflexivity].
    destruct Hn as [-> | ->]; [reflexivity|].
    destruct (lookup "text" fields); reflexivity. }
  split.
  { intros fields t ty Hk Ht Hty H1 H2 H3. unfold make_segment.
    apply known_keys_forallb in Hk. rewrite Hk, Ht, Hty.
    destruct ty as [| | |x| |]; try reflexivity. simpl.
    destruct (String.eqb_spec x "bankrupt"); [subst; congruence|].
    destruct (String.eqb_spec x "loseturn"); [subst; congruence|].
    destruct (String.eqb_spec x "cash"); [subst; congruence|].
    reflexivity. }
  split.
  { intros pre item post e Hpre He. apply load_segments_app; assumption. }
  split.
  { intros fields seg. unfold make_segment. destruct (forallb _ fields); [|discriminate].
    destruct (lookup "text" fields), (lookup "type" fields) as [ty|];
      try discriminate.
    destruct (parse_wheel_result ty); [|discriminate].
    intros H. injection H as <-. reflexivity. }
  split; [reflexivity|].
  split; [intros [|i]; reflexivity|].
  intros wheel i Hi. apply nth_error_Some in Hi.
  destruct (nth_error wheel i) as [seg|] eqn:E; [|congruence].
  exists seg. split; [reflexivity|]. unfold spin_wheel, random_choice. rewrite E.
  reflexivity.
Qed.

(** A record of the wheel file with a negative value. *)
Definition negative_record : JValue :=
  JObj [("text", JStr "-100"); ("type", JStr "cash"); ("value", JNum (-100))]%string.

Definition negative_segment : WheelSegment :=
  mkSegment (JStr "-100") CASH (JNum (-100)) (JStr "").

Lemma negative_segment_spins :
  load_wheel (JArr [negative_record]) = Ok [negative_segment] /\
  spin_wheel [negative_segment] 0 = Ok negative_segment.
Proof. split; reflexivity. Qed.

(** ** Witnesses at concrete inputs *)

Lemma vowel_gating_witness :
  valid_move 0 [] [N_of_ascii "A"] = negb (mem (N_of_ascii "A") VOWELS) || (VOWEL_COST <=? 0) /\
  (forall c, In c [] -> valid_move 0 [] [c] = false) /\
  (forall m rest, valid_move 0 [] m = true ->
     request_player_move 0 [] (m :: rest) = Some (m, rest)) /\
  (forall m rest, valid_move 0 [] m = false ->
     request_player_move 0 [] (m :: rest) = request_player_move 0 [] rest) /\
  (forall s seg p m rest,
     guessed s = [] -> nth_error (players s) (player_index s) = Some p ->
     prize_money p = 0 -> seg_type seg = CASH ->
     valid_move 0 [] m = false ->
     turn s seg (m :: rest) = turn s seg rest).
Proof.
  apply (vowel_gating 0 [] (N_of_ascii "A")); [cbv; tauto|intros []].
Defined.

Lemma computer_choice_witness :
  List.length (filter (smart_coin_flip 3) draws) = 7%nat /\
  (forall draw choice, 3 < draw ->
     exists c, computer_get_move 3 0 [] draw choice = Ok [c] /\
       In c (get_possible_letters 0 []) /\
       forall c', In c' (get_possible_letters 0 []) ->
         (freq_key c' <= freq_key c)%nat) /\
  (forall draw choice, draw <= 3 ->
     (choice < List.length (get_possible_letters 0 []))%nat ->
     exists c, nth_error (get_possible_letters 0 []) choice = Some c /\
       computer_get_move 3 0 [] draw choice = Ok [c]) /\
  NoDup (get_possible_letters 0 []).
Proof.
  apply (computer_choice 3 0 []); [lia|discriminate].
Defined.

(** * Further properties of [main.py] *)

(** ** Input loops *)

(** The loop of [request_player_move] read as a split of its inputs: the
    rejected answers, then the accepted one, then the rest. *)
Lemma request_player_move_split (money : Z) (g : list pchar) (inputs : list pstr)
    (move : pstr) (rest : list pstr) :
  request_player_move money g inputs = Some (move, rest) ->
  exists skipped, inputs = skipped ++ move :: rest /\
    Forall (fun m => valid_move money g m = false) skipped /\
    valid_move money g move = true.
Proof.
  revert move rest. induction inputs as [|m ms IH]; intros move rest; simpl;
    [discriminate|].
  destruct (valid_move money g m) eqn:Hv.
  - intros H. injection H as <- <-. exists []. auto.
  - intros H. destruct (IH move rest H) as (sk & -> & Hsk & Hmv).
    exists (m :: sk). split; [reflexivity|]. split; [constructor; auto|exact Hmv].
Qed.

(** [get_number_between] returns a number within its bounds: the first
    line that parses to a number in range; every line before it either does
    not parse or parses to a number out of range. *)
Theorem get_number_between_spec (py_int : string -> option Z) (lo hi n : Z)
    (inputs rest : list string) :
  get_number_between py_int lo hi inputs = Some (n, rest) ->
  lo <= n <= hi /\
  exists skipped line, inputs = skipped ++ line :: rest /\ py_int line = Some n /\
    Forall (fun l => forall m, py_int l = Some m -> ~ (lo <= m <= hi)) skipped.
Proof.
  revert n rest. induction inputs as [|l ls IH]; intros n rest; simpl; [discriminate|].
  destruct (py_int l) as [m|] eqn:Hl.
  - destruct ((lo <=? m) && (m <=? hi)) eqn:Hr.
    + intros H. injection H as <- <-. apply andb_true_iff in Hr as [H1 H2].
      apply Z.leb_le in H1. apply Z.leb_le in H2. split; [lia|].
      exists [], l. auto.
    + intros H. destruct (IH n rest H) as (Hb & sk & line & -> & Hline & Hsk).
      split; [exact Hb|]. exists (l :: sk), line. split; [reflexivity|].
      split; [exact Hline|]. constructor; [|exact Hsk].
      intros m' Hm'. rewrite Hl in Hm'. injection Hm' as <-.
      intros [H1 H2]. apply Z.leb_le in H1. apply Z.leb_le in H2.
      rewrite H1, H2 in Hr. discriminate.
  - intros H. destruct (IH n rest H) as (Hb & sk & line & -> & Hline & Hsk).
    split; [exact Hb|]. exists (l :: sk), line. split; [reflexivity|].
    split; [exact Hline|]. constructor; [|exact Hsk].
    intros m' Hm'. rewrite Hl in Hm'. discriminate.
Qed.

(** [int] on lines of one decimal digit, for the concrete runs below. *)
Definition digit_int (line : string) : option Z :=
  match line with
  | String a EmptyString =>
      let n := Z.of_N (N_of_ascii a) - 48 in
      if (0 <=? n) && (n <=? 9) then Some n else None
  | _ => None
  end.

Lemma get_number_between_spec_witness :
  1 <= 3 <= 5 /\
  exists skipped line, ["x"; "7"; "3"; "a"]%string = skipped ++ line :: ["a"%string] /\
    digit_int line = Some 3 /\
    Forall (fun l => forall m, digit_int l = Some m -> ~ (1 <= m <= 5)) skipped.
Proof.
  apply (get_number_between_spec digit_int 1 5 3 ["x"; "7"; "3"; "a"]%string ["a"%string]).
  reflexivity.
Defined.

(** ** [obscure_phrase] and the win test *)

Lemma obscure_char_id (g : list pchar) (c : pchar) :
  obscure_char g c = c <-> (In c LETTERS -> In c g).
Proof.
  unfold obscure_char. destruct (mem c LETTERS) eqn:Hl; simpl.
  - apply mem_In in Hl. destruct (mem c g) eqn:Hg; simpl.
    + apply mem_In in Hg. split; auto.
    + apply mem_false_not_In in Hg. split.
      * intros Heq. rewrite <- Heq in Hl. vm_compute in Hl.
        repeat (destruct Hl as [Hl|Hl]; [discriminate|]). destruct Hl.
      * intros H. exfalso. apply Hg, H, Hl.
  - apply mem_false_not_In in Hl. split; [intros _ H; contradiction|reflexivity].
Qed.

(** The board is the phrase iff every letter of it is guessed. *)
Lemma obscure_phrase_id_iff (p : pstr) (g : list pchar) :
  obscure_phrase p g = p <-> (forall c, In c p -> In c LETTERS -> In c g).
Proof.
  unfold obscure_phrase. induction p as [|c p IH]; simpl.
  - split; [intros _ c []|reflexivity].
  - split.
    + intros H. injection H as Hc Hp. intros c' [<-|Hin].
      * apply obscure_char_id, Hc.
      * apply IH; assumption.
    + intros H. f_equal.
      * apply obscure_char_id. apply H. left. reflexivity.
      * apply IH. intros c' Hin. apply H. right. exact Hin.
Qed.

(** the win test of [main] ([obscure_phrase(phrase, guessed) == phrase])
    holds exactly when every letter [A-Z] of the phrase has been guessed. *)
Theorem obscure_complete (p : pstr) (g : list pchar) :
  obscure_phrase p g = p <-> (forall c, In c p -> In c LETTERS -> In c g).
Proof. apply obscure_phrase_id_iff. Qed.

(** obscuring an obscured board changes nothing: the placeholder ['_']
    is not a letter, and every shown letter is guessed. *)
Theorem obscure_idempotent (p : pstr) (g : list pchar) :
  obscure_phrase (obscure_phrase p g) g = obscure_phrase p g.
Proof.
  unfold obscure_phrase. rewrite map_map. apply map_ext. intros c.
  unfold obscure_char.
  destruct (mem c LETTERS && negb (mem c g)) eqn:E.
  - destruct (mem UNDERSCORE LETTERS && _); reflexivity.
  - rewrite E. reflexivity.
Qed.

(** ** What a turn can produce *)

Definition ident (p : Player) : string * PlayerKind * list string :=
  (name p, kind p, prizes p).

Lemma replace_nth_map {A B} (f : A -> B) (n : nat) (x : A) (l : list A) :
  map f (replace_nth n x l) = replace_nth n (f x) (map f l).
Proof.
  revert n. induction l as [|y l IH]; intros [|n]; simpl; f_equal; auto.
Qed.

Lemma replace_nth_nth {A} (n : nat) (z : A) (l : list A) :
  nth_error l n = Some z -> replace_nth n z l = l.
Proof.
  revert n. induction l as [|y l IH]; intros [|n]; simpl; try discriminate.
  - intros H. injection H as ->. reflexivity.
  - intros H. f_equal. apply IH, H.
Qed.

(** A move of no character or of several is accepted only as ["EXIT"] or
    ["PASS"]. *)
Lemma valid_move_long (money : Z) (g : list pchar) (move : pstr) :
  pstr_eqb move EXIT = false -> pstr_eqb move PASS = false ->
  (forall c, move <> [c]) -> valid_move money g move = false.
Proof.
  intros He Hp Hs. unfold valid_move. rewrite He, Hp. simpl.
  destruct move as [|c [|d m]]; [reflexivity| |reflexivity].
  exfalso. apply (Hs c). reflexivity.
Qed.

Ltac inj_subst H := first [discriminate H | injection H; intros; subst].

Lemma turn_won_inv (s : GameState) (seg : WheelSegment) (inputs rest : list pstr)
    (s' : GameState) (w : Player) :
  turn s seg inputs = Some (Won s' w, rest) ->
  seg_type seg = CASH /\ nth_error (players s) (player_index s) = Some w /\
  exists c, valid_move (prize_money w) (guessed s) [c] = true /\
    s' = set_guessed s (set_add c (guessed s)) /\
    obscure_phrase (phrase s') (guessed s') = phrase s'.
Proof.
  unfold turn. destruct (nth_error (players s) (player_index s)) as [p|] eqn:Hp;
    [|discriminate].
  destruct (seg_type seg); try (intros H; injection H; discriminate).
  destruct (request_player_move (prize_money p) (guessed s) inputs)
    as [[move r]|] eqn:Hreq; [|discriminate].
  apply request_player_move_shape in Hreq.
  destruct (pstr_eqb move EXIT) eqn:He; [intros H; injection H; discriminate|].
  destruct (pstr_eqb move PASS) eqn:Hpa; [intros H; injection H; discriminate|].
  destruct move as [|c [|d m]].
  - rewrite valid_move_long in Hreq; [discriminate|exact He|exact Hpa|congruence].
  - simpl. destruct (pstr_eqb (obscure_phrase (phrase s) (set_add c (guessed s))) (phrase s))
      eqn:Hw; intros H; [injection H as <- <- _|discriminate].
    split; [reflexivity|]. split; [reflexivity|].
    exists c. split; [exact Hreq|]. split; [reflexivity|]. apply pstr_eqb_eq, Hw.
  - rewrite valid_move_long in Hreq; [discriminate|exact He|exact Hpa|congruence].
Qed.

Lemma turn_guess (s : GameState) (seg : WheelSegment) (inputs rest : list pstr)
    (o : Outcome) (s' : GameState) :
  turn s seg inputs = Some (o, rest) -> outcome_state o = Some s' ->
  guessed s' = guessed s \/
  exists p c, nth_error (players s) (player_index s) = Some p /\
    valid_move (prize_money p) (guessed s) [c] = true /\
    guessed s' = set_add c (guessed s).
Proof.
  intros Ht Ho. destruct o as [s1| |s1 w]; simpl in Ho; [|discriminate|].
  - injection Ho as ->. unfold turn in Ht.
    destruct (nth_error (players s) (player_index s)) as [p|] eqn:Hp; [|discriminate].
    destruct (seg_type seg).
    + inj_subst Ht. left. reflexivity.
    + inj_subst Ht. left. reflexivity.
    + destruct (request_player_move (prize_money p) (guessed s) inputs)
        as [[move r]|] eqn:Hreq; [|discriminate].
      apply request_player_move_shape in Hreq.
      destruct (pstr_eqb move EXIT); [discriminate|].
      destruct (pstr_eqb move PASS); [inj_subst Ht; left; reflexivity|].
      destruct move as [|c [|d m]].
      * destruct (pstr_eqb [] (phrase s)); inj_subst Ht; left; reflexivity.
      * simpl in Ht.
        destruct (pstr_eqb (obscure_phrase (phrase s) (set_add c (guessed s))) (phrase s));
          inj_subst Ht.
        right. exists p, c. auto.
      * destruct (pstr_eqb _ (phrase s)); inj_subst Ht; left; reflexivity.
  - injection Ho as ->. destruct (turn_won_inv s seg inputs rest s' w Ht)
      as (_ & Hp & c & Hv & -> & _).
    right. exists w, c. auto.
Qed.

Lemma turn_players (s : GameState) (seg : WheelSegment) (inputs rest : list pstr)
    (o : Outcome) (s' : GameState) :
  turn s seg inputs = Some (o, rest) -> outcome_state o = Some s' ->
  map ident (players s') = map ident (players s) /\
  (player_index s' < List.length (players s'))%nat.
Proof.
  intros Ht Ho.
  assert (Hlen : forall l n (y : Player), nth_error l n = Some y ->
            (Nat.modulo (S n) (List.length l) < List.length l)%nat).
  { intros l n y Hy. apply Nat.mod_upper_bound.
    destruct l; [destruct n; discriminate|discriminate]. }
  destruct o as [s1| |s1 w]; simpl in Ho; [|discriminate|].
  - injection Ho as ->. unfold turn in Ht.
    destruct (nth_error (players s) (player_index s)) as [p|] eqn:Hp; [|discriminate].
    assert (Hadv : forall t, players t = players s -> player_index t = player_index s ->
              map ident (players (advance t)) = map ident (players s) /\
              (player_index (advance t) < List.length (players (advance t)))%nat).
    { intros t Ht1 Ht2. simpl. rewrite Ht1, Ht2. split; [reflexivity|].
      apply (Hlen _ _ p Hp). }
    destruct (seg_type seg).
    + inj_subst Ht. simpl. rewrite replace_nth_length. split.
      * rewrite replace_nth_map. apply replace_nth_nth.
        rewrite nth_error_map, Hp. reflexivity.
      * apply (Hlen _ _ p Hp).
    + inj_subst Ht. apply Hadv; reflexivity.
    + destruct (request_player_move (prize_money p) (guessed s) inputs)
        as [[move r]|]; [|discriminate].
      destruct (pstr_eqb move EXIT); [discriminate|].
      destruct (pstr_eqb move PASS); [inj_subst Ht; apply Hadv; reflexivity|].
      destruct move as [|c [|d m]].
      * destruct (pstr_eqb [] (phrase s)); inj_subst Ht; apply Hadv; reflexivity.
      * simpl in Ht.
        destruct (pstr_eqb (obscure_phrase (phrase s) (set_add c (guessed s))) (phrase s));
          inj_subst Ht.
        apply Hadv; reflexivity.
      * destruct (pstr_eqb _ (phrase s)); inj_subst Ht; apply Hadv; reflexivity.
  - injection Ho as ->. destruct (turn_won_inv s seg inputs rest s' w Ht)
      as (_ & Hp & c & _ & -> & _).
    simpl. split; [reflexivity|]. apply nth_error_Some. congruence.
Qed.

(** ** The game loop from the start of a game *)

Lemma reachable_players (ps : list Player) (cat : string) (ph : pstr) (s0 s : GameState) :
  start_game ps cat ph = Ok s0 -> reachable s0 s ->
  (player_index s < List.length (players s))%nat /\ map ident (players s) = map ident ps.
Proof.
  intros Hstart Hr. induction Hr as [|s seg inputs s' rest Hr IH Ht].
  - destruct ps as [|p ps]; [discriminate|]. injection Hstart as <-. simpl.
    split; [lia|reflexivity].
  - destruct (turn_players s seg inputs rest (Continue s') s' Ht eq_refl) as [Hm Hi].
    split; [exact Hi|]. rewrite Hm. apply IH.
Qed.

(** in every state the loop reaches, [players[player_index]] is a valid
    index, the players are those of the start in the same order with the
    same names, kinds and prizes, and a [BANKRUPT] or [LOSE_TURN] spin
    always completes without asking the player anything. *)
Theorem player_index_in_bounds (ps : list Player) (cat : string) (ph : pstr)
    (s0 s : GameState) :
  start_game ps cat ph = Ok s0 -> reachable s0 s ->
  (player_index s < List.length (players s))%nat /\
  map ident (players s) = map ident ps /\
  forall seg inputs, seg_type seg <> CASH ->
    exists s', turn s seg inputs = Some (Continue s', inputs).
Proof.
  intros Hstart Hr. destruct (reachable_players ps cat ph s0 s Hstart Hr) as [Hi Hm].
  split; [exact Hi|]. split; [exact Hm|].
  intros seg inputs Hc. apply nth_error_Some in Hi.
  unfold turn. destruct (nth_error (players s) (player_index s)); [|congruence].
  destruct (seg_type seg); [eexists; reflexivity|eexists; reflexivity|congruence].
Qed.

Lemma player_index_in_bounds_witness :
  (player_index played3 < List.length (players played3))%nat /\
  map ident (players played3) = map ident (new_players ["Ana"; "Bob"]%string 0 1) /\
  forall seg inputs, seg_type seg <> CASH ->
    exists s', turn played3 seg inputs = Some (Continue s', inputs).
Proof.
  apply (player_index_in_bounds (new_players ["Ana"; "Bob"]%string 0 1) "Pozdrav"
           (ustr "HELLO WORLD") game_start played3); [reflexivity|exact played3_reachable].
Defined.


(** the game ends by ["EXIT"] only on a cash spin, when the player's
    first accepted answer is ["EXIT"]; the answers before it were all
    rejected. *)
Theorem exit_only_by_exit_move (s : GameState) (seg : WheelSegment)
    (inputs rest : list pstr) :
  turn s seg inputs = Some (Exited, rest) ->
  seg_type seg = CASH /\
  exists p skipped, nth_error (players s) (player_index s) = Some p /\
    inputs = skipped ++ EXIT :: rest /\
    Forall (fun m => valid_move (prize_money p) (guessed s) m = false) skipped.
Proof.
  unfold turn. destruct (nth_error (players s) (player_index s)) as [p|] eqn:Hp;
    [|discriminate].
  destruct (seg_type seg); try (intros H; inj_subst H; fail).
  destruct (request_player_move (prize_money p) (guessed s) inputs)
    as [[move r]|] eqn:Hreq; [|discriminate].
  destruct (pstr_eqb move EXIT) eqn:He.
  - intros H. injection H as <-. apply pstr_eqb_eq in He. subst move.
    apply request_player_move_split in Hreq as (sk & Hin & Hsk & _).
    split; [reflexivity|]. exists p, sk. auto.
  - destruct (pstr_eqb move PASS); [intros H; inj_subst H|].
    destruct move as [|c [|d m]].
    + destruct (pstr_eqb [] (phrase s)); intros H; inj_subst H.
    + simpl. destruct (pstr_eqb (obscure_phrase (phrase s) (set_add c (guessed s))) (phrase s));
        intros H; inj_subst H.
    + destruct (pstr_eqb _ (phrase s)); intros H; inj_subst H.
Qed.

Lemma exit_only_by_exit_move_witness :
  seg_type cash_segment = CASH /\
  exists p skipped, nth_error (players hello_state) 0 = Some p /\
    [ustr "HELLO WORLD"; EXIT] = skipped ++ EXIT :: [] /\
    Forall (fun m => valid_move (prize_money p) [] m = false) skipped.
Proof.
  apply (exit_only_by_exit_move hello_state cash_segment [ustr "HELLO WORLD"; EXIT] []).
  reflexivity.
Defined.

(** ** Guessed letters and wins *)

Lemma valid_broke_letter (g : list pchar) (c : pchar) :
  valid_move 0 g [c] = true -> In c LETTERS /\ ~ In c VOWELS /\ ~ In c g.
Proof.
  rewrite valid_move_single. intros H.
  apply andb_true_iff in H as [H Hv]. apply andb_true_iff in H as [Hl Hg].
  apply negb_true_iff, mem_false_not_In in Hg.
  split; [apply mem_In, Hl|]. split; [|exact Hg].
  destruct (mem c VOWELS) eqn:E; [discriminate|]. apply mem_false_not_In, E.
Qed.

Definition consonant_game (s : GameState) : Prop :=
  Forall broke (players s) /\ NoDup (guessed s) /\
  forall c, In c (guessed s) -> In c LETTERS /\ ~ In c VOWELS.

Lemma consonant_game_step (s : GameState) (seg : WheelSegment) (inputs rest : list pstr)
    (o : Outcome) (s' : GameState) :
  consonant_game s -> turn s seg inputs = Some (o, rest) -> outcome_state o = Some s' ->
  consonant_game s'.
Proof.
  intros (Hb & Hnd & Hc) Ht Ho.
  destruct (turn_frame s seg inputs rest o s' Ht Ho) as (_ & _ & Hm).
  split; [apply Hm, Hb|].
  destruct (turn_guess s seg inputs rest o s' Ht Ho) as [-> | (p & c & Hp & Hv & ->)];
    [split; assumption|].
  apply nth_error_In in Hp. rewrite Forall_forall in Hb.
  rewrite (Hb p Hp) in Hv. apply valid_broke_letter in Hv as (Hl & Hnv & Hng).
  unfold set_add. apply mem_false_not_In in Hng. rewrite Hng.
  apply mem_false_not_In in Hng. split; [constructor; assumption|].
  intros x [<- | Hx]; [auto|apply Hc, Hx].
Qed.

Lemma consonant_game_reachable (hn : list string) (nc : nat) (d : Z) (cat : string)
    (ph : pstr) (s0 s : GameState) :
  start_game (new_players hn nc d) cat ph = Ok s0 -> reachable s0 s ->
  consonant_game s.
Proof.
  intros Hstart Hr. induction Hr as [|s seg inputs s' rest Hr IH Ht].
  - destruct (new_players hn nc d) eqn:E; [discriminate|].
    injection Hstart as <-. simpl. split; [rewrite <- E; apply new_players_broke|].
    split; [constructor|intros c []].
  - apply (consonant_game_step s seg inputs rest (Continue s') s'); auto.
Qed.

(** in a game started from the configured players, the guessed letters
    are always distinct consonants of [A-Z]. *)
Theorem guessed_are_consonants (hn : list string) (nc : nat) (d : Z) (cat : string)
    (ph : pstr) (s0 s : GameState) :
  start_game (new_players hn nc d) cat ph = Ok s0 -> reachable s0 s ->
  NoDup (guessed s) /\ forall c, In c (guessed s) -> In c LETTERS /\ ~ In c VOWELS.
Proof.
  intros Hstart Hr. destruct (consonant_game_reachable hn nc d cat ph s0 s Hstart Hr)
    as (_ & Hnd & Hc). auto.
Qed.

Lemma guessed_are_consonants_witness :
  NoDup (guessed played3) /\
  forall c, In c (guessed played3) -> In c LETTERS /\ ~ In c VOWELS.
Proof.
  apply (guessed_are_consonants ["Ana"; "Bob"]%string 0 1 "Pozdrav" (ustr "HELLO WORLD")
           game_start played3); [reflexivity|exact played3_reachable].
Defined.

(** every win is a cash spin on which the current player's accepted
    answer is one letter that completes the board: after adding it, every
    letter [A-Z] of the phrase is guessed. No win comes from typing the
    phrase. *)
Theorem win_completes_board (s : GameState) (seg : WheelSegment)
    (inputs rest : list pstr) (s' : GameState) (w : Player) :
  turn s seg inputs = Some (Won s' w, rest) ->
  seg_type seg = CASH /\ nth_error (players s) (player_index s) = Some w /\
  exists c, valid_move (prize_money w) (guessed s) [c] = true /\
    guessed s' = set_add c (guessed s) /\ phrase s' = phrase s /\
    forall x, In x (phrase s) -> In x LETTERS -> In x (guessed s').
Proof.
  intros Ht. destruct (turn_won_inv s seg inputs rest s' w Ht)
    as (Hc & Hp & c & Hv & -> & Hb).
  split; [exact Hc|]. split; [exact Hp|]. exists c.
  split; [exact Hv|]. split; [reflexivity|]. split; [reflexivity|].
  apply obscure_phrase_id_iff, Hb.
Qed.

Definition consonant_state : GameState :=
  mkState "Zvuk" (ustr "BRR") (ustr "B") [new_player "Ana" HumanPlayer] 0%nat.

Lemma win_completes_board_witness :
  seg_type cash_segment = CASH /\
  nth_error (players consonant_state) 0 = Some (new_player "Ana" HumanPlayer) /\
  exists c, valid_move 0 (ustr "B") [c] = true /\
    guessed (set_guessed consonant_state (ustr "RB")) = set_add c (ustr "B") /\
    phrase (set_guessed consonant_state (ustr "RB")) = ustr "BRR" /\
    forall x, In x (ustr "BRR") -> In x LETTERS ->
      In x (guessed (set_guessed consonant_state (ustr "RB"))).
Proof.
  apply (win_completes_board consonant_state cash_segment [ustr "B"; ustr "R"] []
           (set_guessed consonant_state (ustr "RB")) (new_player "Ana" HumanPlayer)).
  reflexivity.
Defined.

(** a game whose phrase contains a vowel [A, E, I, O, U] is never won:
    no turn from a reachable state ends with a winner (vowels are never
    affordable and the phrase cannot be typed), so such a game ends only
    by ["EXIT"]. *)
Theorem vowel_phrase_never_won (hn : list string) (nc : nat) (d : Z) (cat : string)
    (ph : pstr) (s0 s : GameState) (v : pchar) :
  start_game (new_players hn nc d) cat ph = Ok s0 ->
  In v VOWELS -> In v ph -> reachable s0 s ->
  forall seg inputs rest s' w, turn s seg inputs <> Some (Won s' w, rest).
Proof.
  intros Hstart Hv Hvp Hr seg inputs rest s' w Ht.
  destruct (consonant_game_reachable hn nc d cat ph s0 s Hstart Hr) as (Hb & _ & Hc).
  destruct (reachable_frame s0 s Hr) as (Hph & _).
  assert (Hph0 : phrase s0 = ph).
  { destruct (new_players hn nc d); [discriminate|]. injection Hstart as <-. reflexivity. }
  destruct (turn_won_inv s seg inputs rest s' w Ht) as (_ & Hp & c & Hcv & -> & Hbd).
  apply nth_error_In in Hp. rewrite Forall_forall in Hb. rewrite (Hb w Hp) in Hcv.
  apply valid_broke_letter in Hcv as (_ & Hcnv & Hcng).
  simpl in Hbd. pose proof (proj1 (obscure_phrase_id_iff (phrase s) _) Hbd) as Hbd'.
  clear Hbd. rename Hbd' into Hbd.
  assert (HvL : In v LETTERS).
  { revert Hv. cbv. intuition congruence. }
  assert (Hin : In v (set_add c (guessed s))) by (apply Hbd; [congruence|exact HvL]).
  unfold set_add in Hin. apply mem_false_not_In in Hcng. rewrite Hcng in Hin.
  destruct Hin as [<- | Hin]; [exact (Hcnv Hv)|].
  apply (proj2 (Hc v Hin)), Hv.
Qed.

Lemma vowel_phrase_never_won_witness :
  In (N_of_ascii "E") (phrase played3) /\
  forall seg inputs rest s' w, turn played3 seg inputs <> Some (Won s' w, rest).
Proof.
  split; [cbv; tauto|].
  apply (vowel_phrase_never_won ["Ana"; "Bob"]%string 0 1 "Pozdrav" (ustr "HELLO WORLD")
           game_start played3 (N_of_ascii "E"));
    [reflexivity|cbv; tauto|cbv; tauto|exact played3_reachable].
Defined.

(** ** Reading the players *)

Lemma get_number_between_range (py_int : string -> option Z) (lo hi n : Z)
    (inputs rest : list string) :
  get_number_between py_int lo hi inputs = Some (n, rest) -> lo <= n <= hi.
Proof.
  induction inputs as [|l ls IH]; simpl; [discriminate|].
  destruct (py_int l) as [m|]; [|exact IH].
  destruct ((lo <=? m) && (m <=? hi)) eqn:Hr; [|exact IH].
  intros H. injection H as <- _. apply andb_true_iff in Hr as [H1 H2].
  apply Z.leb_le in H1. apply Z.leb_le in H2. lia.
Qed.

Definition fresh_player (p : Player) : Prop :=
  prize_money p = 0 /\ prizes p = [] /\
  (kind p = HumanPlayer \/ exists d, kind p = ComputerPlayer d /\ 1 <= d <= 10).

Lemma new_players_humans (names : list string) (nc : nat) (d : Z) :
  map name (firstn (List.length names) (new_players names nc d)) = names /\
  Forall (fun p => kind p = HumanPlayer) (firstn (List.length names) (new_players names nc d)).
Proof.
  unfold new_players.
  rewrite firstn_app, length_map, Nat.sub_diag. simpl.
  rewrite app_nil_r, firstn_all2 by (rewrite length_map; lia).
  split.
  - rewrite map_map. simpl. apply map_id.
  - apply Forall_forall. intros p Hp. apply in_map_iff in Hp as [x [<- _]].
    reflexivity.
Qed.

(** the players read at the start of [main] are at most 20: the first
    ones are the humans, named in order by the lines after the first count
    (at most 10), then at most 10 computers; each has no money and no
    prize, and every computer has a difficulty in [1..10]. *)
Theorem read_players_spec (py_int : string -> option Z) (inputs rest : list string)
    (ps : list Player) :
  read_players py_int inputs = Some (ps, rest) ->
  (List.length ps <= 20)%nat /\ Forall fresh_player ps /\
  exists nh r1, get_number_between py_int 0 10 inputs = Some (nh, r1) /\
    map name (firstn (Z.to_nat nh) ps) = firstn (Z.to_nat nh) r1 /\
    Forall (fun p => kind p = HumanPlayer) (firstn (Z.to_nat nh) ps).
Proof.
  unfold read_players.
  destruct (get_number_between py_int 0 10 inputs) as [[nh r1]|] eqn:H1; [|discriminate].
  apply get_number_between_range in H1 as Hnh.
  destruct (Nat.leb (Z.to_nat nh) (List.length r1)) eqn:Hle; [|discriminate].
  apply Nat.leb_le in Hle.
  assert (Hnames : List.length (firstn (Z.to_nat nh) r1) = Z.to_nat nh)
    by (rewrite length_firstn; lia).
  assert (Hgen : forall nc d, 0 <= nc <= 10 -> (nc >= 1 -> 1 <= d <= 10) ->
            (List.length (new_players (firstn (Z.to_nat nh) r1) (Z.to_nat nc) d) <= 20)%nat /\
            Forall fresh_player (new_players (firstn (Z.to_nat nh) r1) (Z.to_nat nc) d) /\
            map name (firstn (Z.to_nat nh) (new_players (firstn (Z.to_nat nh) r1) (Z.to_nat nc) d))
              = firstn (Z.to_nat nh) r1 /\
            Forall (fun p => kind p = HumanPlayer)
              (firstn (Z.to_nat nh) (new_players (firstn (Z.to_nat nh) r1) (Z.to_nat nc) d))).
  { intros nc d Hnc Hd.
    pose proof (new_players_humans (firstn (Z.to_nat nh) r1) (Z.to_nat nc) d) as Hh.
    rewrite Hnames in Hh. unfold new_players in *.
    rewrite length_app, !length_map, length_seq, Hnames.
    split; [lia|]. split; [|exact Hh].
    - apply Forall_app. split; apply Forall_forall; intros p Hp;
        apply in_map_iff in Hp as [x [<- Hx]].
      + repeat split. left. reflexivity.
      + apply in_seq in Hx. repeat split. right. exists d. split; [reflexivity|lia].
    }
  destruct (get_number_between py_int 0 10 (skipn (Z.to_nat nh) r1)) as [[nc r2]|] eqn:H2;
    [|discriminate].
  apply get_number_between_range in H2 as Hnc.
  destruct (1 <=? nc) eqn:Hc.
  - destruct (get_number_between py_int 1 10 r2) as [[d r3]|] eqn:H3; [|discriminate].
    apply get_number_between_range in H3 as Hd.
    intros H. injection H as <- _.
    destruct (Hgen nc d Hnc (fun _ => Hd)) as (Ha & Hb & Hn & Hk).
    split; [exact Ha|]. split; [exact Hb|]. exists nh, r1. auto.
  - apply Z.leb_gt in Hc. intros H. injection H as <- _.
    destruct (Hgen 0 0 ltac:(lia) ltac:(lia)) as (Ha & Hb & Hn & Hk).
    split; [exact Ha|]. split; [exact Hb|]. exists nh, r1. auto.
Qed.

Lemma read_players_spec_witness :
  (List.length [new_player "A" HumanPlayer; new_player (computer_name 0) (ComputerPlayer 4)]
     <= 20)%nat /\
  Forall fresh_player [new_player "A" HumanPlayer; new_player (computer_name 0) (ComputerPlayer 4)] /\
  exists nh r1, get_number_between digit_int 0 10 ["1"; "A"; "1"; "4"]%string = Some (nh, r1) /\
    map name (firstn (Z.to_nat nh)
      [new_player "A" HumanPlayer; new_player (computer_name 0) (ComputerPlayer 4)])
      = firstn (Z.to_nat nh) r1 /\
    Forall (fun p => kind p = HumanPlayer) (firstn (Z.to_nat nh)
      [new_player "A" HumanPlayer; new_player (computer_name 0) (ComputerPlayer 4)]).
Proof.
  apply (read_players_spec digit_int ["1"; "A"; "1"; "4"]%string []). reflexivity.
Defined.

(** ** Loading the wheel *)

(** The string of [wheel.json] naming a [WheelResult]. *)
Definition wheel_type_name (k : WheelResult) : JValue :=
  match k with
  | BANKRUPT => JStr "bankrupt"
  | LOSE_TURN => JStr "loseturn"
  | CASH => JStr "cash"
  end.

(** [seg] is the segment that [WheelSegment] builds from the record
    [item]: an object with known keys only, whose [text] and [type] are the
    segment's, and whose [value] and [prize] (or their defaults) are. *)
Definition segment_of (item : JValue) (seg : WheelSegment) : Prop :=
  exists fields, item = JObj fields /\
    Forall (fun kv => In (fst kv) init_params) fields /\
    lookup "text" fields = Some (seg_text seg) /\
    lookup "type" fields = Some (wheel_type_name (seg_type seg)) /\
    seg_value seg = default_to (JNum 0) (lookup "value" fields) /\
    seg_prize seg = default_to (JStr "") (lookup "prize" fields).

Lemma parse_wheel_result_ok (ty : JValue) (k : WheelResult) :
  parse_wheel_result ty = Ok k <-> ty = wheel_type_name k.
Proof.
  split.
  - destruct ty as [| | |x| |]; try discriminate. simpl.
    destruct (String.eqb_spec x "bankrupt"); [intros H; injection H as <-; subst; reflexivity|].
    destruct (String.eqb_spec x "loseturn"); [intros H; injection H as <-; subst; reflexivity|].
    destruct (String.eqb_spec x "cash"); [intros H; injection H as <-; subst; reflexivity|].
    discriminate.
  - intros ->. destruct k; reflexivity.
Qed.

Lemma make_segment_ok (item : JValue) (seg : WheelSegment) :
  make_segment item = Ok seg <-> segment_of item seg.
Proof.
  split.
  - destruct item as [| | | | |fields]; try discriminate. unfold make_segment.
    destruct (forallb _ fields) eqn:Hf; [|discriminate].
    destruct (lookup "text" fields) as [t|] eqn:Ht; [|discriminate].
    destruct (lookup "type" fields) as [ty|] eqn:Hty; [|discriminate].
    destruct (parse_wheel_result ty) as [k|] eqn:Hp; [|discriminate].
    intros H. injection H as <-. apply parse_wheel_result_ok in Hp. subst ty.
    exists fields. simpl. repeat split; try assumption; try reflexivity.
    apply known_keys_forallb, Hf.
  - intros (fields & -> & Hk & Ht & Hty & Hv & Hpz). unfold make_segment.
    apply known_keys_forallb in Hk. rewrite Hk, Ht, Hty.
    rewrite (proj2 (parse_wheel_result_ok _ (seg_type seg)) eq_refl).
    rewrite <- Hv, <- Hpz. destruct seg. reflexivity.
Qed.

Lemma load_segments_ok (items : list JValue) (w : list WheelSegment) :
  load_segments items = Ok w <-> Forall2 segment_of items w.
Proof.
  revert w. induction items as [|it items IH]; intros w; simpl.
  - split; [intros H; injection H as <-; constructor|intros H; inversion H; reflexivity].
  - split.
    + destruct (make_segment it) as [s|e] eqn:Hs; [|discriminate].
      destruct (load_segments items) as [ss|e] eqn:Hss; [|discriminate].
      intros H. injection H as <-. constructor.
      * apply make_segment_ok, Hs.
      * apply IH. reflexivity.
    + intros H. inversion H as [|x s xs ss Hx Hxs]; subst.
      apply make_segment_ok in Hx. apply IH in Hxs. rewrite Hx, Hxs. reflexivity.
Qed.

(** [load_wheel] on a list of records succeeds exactly when every record
    is an object with only the keys [text], [type], [value] and [prize],
    has [text] and [type], and names a type ["bankrupt"], ["loseturn"] or
    ["cash"]. The wheel it returns then has one segment per record, in the
    file's order, carrying the record's text and type and its value and
    prize (default [0] and [""]). *)
Theorem load_wheel_spec (items : list JValue) :
  ((exists w, load_wheel (JArr items) = Ok w) <->
   Forall (fun item => exists seg, segment_of item seg) items) /\
  (forall w, load_wheel (JArr items) = Ok w <-> Forall2 segment_of items w).
Proof.
  assert (Hw : forall w, load_wheel (JArr items) = Ok w <-> Forall2 segment_of items w)
    by (intros w; apply load_segments_ok).
  split; [|exact Hw].
  split.
  - intros [w Hl]. apply Hw in Hl. clear Hw.
    induction Hl as [|x s xs ss Hx _ IH]; constructor; [exists s; exact Hx|exact IH].
  - intros Hall. cut (exists w, Forall2 segment_of items w).
    { intros [w Hf]. exists w. apply Hw, Hf. }
    clear Hw. induction Hall as [|x xs [s Hs] _ [ss Hss]].
    + exists []. constructor.
    + exists (s :: ss). constructor; assumption.
Qed.
